(** * pulizia.py: cleaning of the text columns of a semicolon-separated table

    A shallow embedding of the script [pulizia.py] and the properties of its
    field normaliser [pulisci_testo], of the row filter, of the column loop
    and of the writer.

    Python strings are sequences of Unicode code points; a cell of the
    pandas table is a missing value, a string, or another scalar (a number
    or a boolean), which the script only ever turns into text with [str]. *)

From Stdlib Require Import NArith Lia String Ascii DecimalString.
From Equations Require Import Equations.
From stdpp Require Import base list option.

Local Open Scope N_scope.

(** ** Python strings *)

Abbreviation pystr := (list N).

(** An ASCII literal of the script, as the code points of a Python string. *)
Definition lit (s : string) : pystr := N_of_ascii <$> list_ascii_of_string s.

Definition space : N := 32.
Definition hyphen : N := 45.

Definition in_range (lo hi c : N) : bool := (lo <=? c) && (c <=? hi).

(** The characters named by the class [A-Za-z0-9\- ] of the first
    substitution. *)
Definition allowed (c : N) : bool :=
  in_range 65 90 c || in_range 97 122 c || in_range 48 57 c
  || (c =? hyphen) || (c =? space).

(** [\s] on a [str] pattern and [str.strip()] without argument both use
    Python's Unicode whitespace test. *)
Definition isspace (c : N) : bool :=
  in_range 0x09 0x0D c || in_range 0x1C 0x20 c || (c =? 0x85) || (c =? 0xA0)
  || (c =? 0x1680) || in_range 0x2000 0x200A c || (c =? 0x2028)
  || (c =? 0x2029) || (c =? 0x202F) || (c =? 0x205F) || (c =? 0x3000).

(** ** The two shapes of [re.sub] the script uses *)

(** [re.sub('[...]', repl, s)] for a pattern that is one character class:
    every character of the class is a match of its own. *)
Definition re_sub_class (cls : N -> bool) (repl s : pystr) : pystr :=
  s ≫= (λ c, if cls c then repl else [c]).

(** [re.sub('[...]+', repl, s)]: scanning from the left, a character of the
    class opens a match, which greedily takes the characters of the class
    that follow; the whole match is replaced once. *)
Fixpoint re_sub_plus (cls : N -> bool) (repl s : pystr) : pystr :=
  match s with
  | [] => []
  | c :: r => if cls c then repl ++ re_sub_plus_in cls repl r
              else c :: re_sub_plus cls repl r
  end
with re_sub_plus_in (cls : N -> bool) (repl s : pystr) : pystr :=
  match s with
  | [] => []
  | c :: r => if cls c then re_sub_plus_in cls repl r
              else c :: re_sub_plus cls repl r
  end.

(** The second substitution of the script, [re.sub(r'\s+', ' ', testo)],
    and its scan inside a match. *)
Abbreviation collapse := (re_sub_plus isspace (lit " ")).
Abbreviation collapse_in := (re_sub_plus_in isspace (lit " ")).

(** Strings over the class of the first substitution. *)
Abbreviation all_allowed := (Forall (λ c, allowed c = true)).

(** ** [str.strip()] *)

Fixpoint drop_while (p : N -> bool) (s : pystr) : pystr :=
  match s with
  | [] => []
  | c :: r => if p c then drop_while p r else s
  end.

Definition lstrip (s : pystr) : pystr := drop_while isspace s.

Definition rstrip (s : pystr) : pystr := reverse (lstrip (reverse s)).

Definition strip (s : pystr) : pystr := rstrip (lstrip s).

(** ** The shape of a cleaned value *)

(** The target alphabet: A-Z, a-z, 0-9, space, hyphen. *)
Definition in_alphabet (c : N) : Prop :=
  (65 ≤ c ≤ 90) ∨ (97 ≤ c ≤ 122) ∨ (48 ≤ c ≤ 57) ∨ c = space ∨ c = hyphen.

(** Two consecutive spaces somewhere in the string. *)
Definition double_space (s : pystr) : Prop :=
  ∃ a b, s = a ++ [space; space] ++ b.

Fixpoint double_spaceb (s : pystr) : bool :=
  match s with
  | [] => false
  | a :: r =>
      match r with
      | b :: _ => (a =? space) && (b =? space)
      | [] => false
      end || double_spaceb r
  end.

(** A cleaned value: over the alphabet, no space at either end, no two
    consecutive spaces. *)
Definition cleaned (s : pystr) : Prop :=
  Forall in_alphabet s ∧ head s ≠ Some space ∧ list.last s ≠ Some space
  ∧ ¬ double_space s.

(** ** The steps of the normaliser as the specification words them *)

Definition spec_alphabet : pystr :=
  lit "ABCDEFGHIJKLMNOPQRSTUVWXYZabcdefghijklmnopqrstuvwxyz0123456789 -".

(** Step 4: a character outside the alphabet becomes a single space. *)
Definition spec_filter (s : pystr) : pystr :=
  (λ c, if bool_decide (c ∈ spec_alphabet) then c else space) <$> s.

(** Step 5: a maximal run of whitespace, that is a whitespace character
    together with all the whitespace that follows it, becomes one space. *)
Equations? spec_collapse (s : pystr) : pystr by wf (length s) lt :=
  spec_collapse [] := [];
  spec_collapse (c :: r) with isspace c => {
    | true := space :: spec_collapse (drop_while isspace r);
    | false := c :: spec_collapse r }.
Proof.
  - clear spec_collapse. induction r as [|d r IH]; simpl; [lia|].
    destruct (isspace d); simpl in *; lia.
  - simpl. lia.
Qed.

(** Step 6: leading and trailing spaces are removed. *)
Definition spec_trim (s : pystr) : pystr :=
  reverse (drop_while (λ c, c =? space)
                      (reverse (drop_while (λ c, c =? space) s))).

(** ** Words *)

(** The characters that survive the cleaning as themselves: letters, digits
    and the hyphen. *)
Definition word_char (c : N) : bool := allowed c && negb (c =? space).

(** The characters that the cleaning turns into a separator. *)
Definition junk (c : N) : bool := negb (word_char c).

(** The scan that replaces every run of separators by one space. *)
Abbreviation scan := (re_sub_plus junk [space]).
Abbreviation scan_in := (re_sub_plus_in junk [space]).

Definition cons_head (c : N) (ws : list pystr) : list pystr :=
  match ws with
  | w :: ws' => (c :: w) :: ws'
  | [] => [[c]]
  end.

(** The maximal runs of characters of [p] in a string, left to right.
    [runs_in] reads on inside a run: the head of its result is what is
    left of that run. *)
Fixpoint runs (p : N -> bool) (s : pystr) : list pystr :=
  match s with
  | [] => []
  | c :: r => if p c then cons_head c (runs_in p r) else runs p r
  end
with runs_in (p : N -> bool) (s : pystr) : list pystr :=
  match s with
  | [] => [[]]
  | c :: r => if p c then cons_head c (runs_in p r) else [] :: runs p r
  end.

(** [' '.join(ws)] *)
Fixpoint join_words (ws : list pystr) : pystr :=
  match ws with
  | [] => []
  | w :: ws' =>
      match ws' with
      | [] => w
      | _ :: _ => w ++ space :: join_words ws'
      end
  end.

(** Two texts with one space between them, unless one of them is empty. *)
Definition join2 (a b : pystr) : pystr :=
  match a, b with
  | [], _ => b
  | _, [] => a
  | _, _ => a ++ space :: b
  end.

(** ** Exceptions *)

Inductive exn : Type := ValueError.

(** What a call gives back: the value it returns or the exception it
    raises. *)
Inductive result (A : Type) : Type :=
  | Ok (a : A)
  | Raise (e : exn).

Arguments Ok {A} a.
Arguments Raise {A} e.

(** ** Cells *)

Section Pulizia.

(** The scalars other than strings that a cell can hold, with Python's
    [str] on them. *)
Context {scalar : Type}.
Variable str_scalar : scalar -> pystr.

(** The transliteration data of the [unidecode] package: one table per
    block of 256 code points, an entry being absent where the package has
    no transliteration. *)
Variable unidecode_table : N -> N -> option pystr.

Inductive value : Type :=
  | VNa                  (* NaN / None, what [pd.isna] answers True on *)
  | VStr (s : pystr)
  | VScalar (x : scalar).

Definition isna (v : value) : bool :=
  match v with VNa => true | _ => false end.

(** [str(testo)]; the script never takes the text of a missing value, it
    tests [pd.isna] first. *)
Definition str (v : value) : pystr :=
  match v with
  | VNa => lit "nan"
  | VStr s => s
  | VScalar x => str_scalar x
  end.

(** ** [unidecode] *)

(** The replacement of one character: ASCII stays, code points above
    0xEFFFF have no data, the others are looked up in the table of their
    block. *)
Definition get_repl_str (c : N) : option pystr :=
  if c <? 0x80 then Some [c]
  else if 0xEFFFF <? c then None
  else unidecode_table (N.shiftr c 8) (c mod 256).

(** [unidecode(s)] with its default [errors='ignore']: a character without
    replacement is dropped. *)
Definition unidecode (s : pystr) : pystr :=
  s ≫= (λ c, default [] (get_repl_str c)).

(** ** The field normaliser *)

Definition pulisci_testo (testo : value) : pystr :=
  if isna testo then []
  else
    let testo := str testo in
    let testo := unidecode testo in
    let testo := re_sub_class (λ c, negb (allowed c)) (lit " ") testo in
    let testo := strip (re_sub_plus isspace (lit " ") testo) in
    testo.

(** ** A call of the field normaliser *)

(** What [pulisci_testo] can be called on: a scalar, as the cells of the
    table are, or a Python list of two or more scalars. *)
Inductive pyobj : Type :=
  | Scalar (v : value)
  | PyList (v0 v1 : value) (vs : list value).

(** What [pd.isna] answers: a boolean on a scalar, an array with one
    boolean per element on a list. *)
Inductive isna_answer : Type :=
  | IsnaBool (b : bool)
  | IsnaArray (b0 b1 : bool) (bs : list bool).

Definition pd_isna (o : pyobj) : isna_answer :=
  match o with
  | Scalar v => IsnaBool (isna v)
  | PyList v0 v1 vs => IsnaArray (isna v0) (isna v1) (isna <$> vs)
  end.

(** The truth value that [if] takes of the answer: an array of more than
    one element has none, which is a [ValueError]. *)
Definition truth (a : isna_answer) : result bool :=
  match a with
  | IsnaBool b => Ok b
  | IsnaArray _ _ _ => Raise ValueError
  end.

(** Python's [str] on a list. *)
Variable str_list : list value -> pystr.

(** [str(testo)] on a Python object. *)
Definition str_obj (o : pyobj) : pystr :=
  match o with
  | Scalar v => str v
  | PyList v0 v1 vs => str_list (v0 :: v1 :: vs)
  end.

(** The body of [pulisci_testo] with its exceptions: the test of
    [pd.isna(testo)] is the one step that can raise. *)
Definition pulisci_testo_py (testo : pyobj) : result pystr :=
  match truth (pd_isna testo) with
  | Raise e => Raise e
  | Ok true => Ok []
  | Ok false =>
      let testo := str_obj testo in
      let testo := unidecode testo in
      let testo := re_sub_class (λ c, negb (allowed c)) (lit " ") testo in
      let testo := strip (re_sub_plus isspace (lit " ") testo) in
      Ok testo
  end.

(** ** The table *)

(** A row of the table: its label in the index and one cell per column. *)
Record Row := { label : N; cells : list value }.

(** The table that [pd.read_csv] loaded: the names of the header, which
    [read_csv] makes distinct, and the rows that parsed. *)
Record DataFrame := { columns : list pystr; rows : list Row }.

(** [df.dropna(how='all', inplace=True)]: a row is dropped when every one of
    its cells is missing. *)
Definition dropna_all (df : DataFrame) : DataFrame :=
  {| columns := columns df;
     rows := filter (λ r, forallb isna (cells r) = false) (rows df) |}.

(** Position of a column name among the columns. *)
Fixpoint get_loc (col : pystr) (cols : list pystr) : option nat :=
  match cols with
  | [] => None
  | c :: cols' => if decide (c = col) then Some 0%nat
                  else S <$> get_loc col cols'
  end.

(** [col in df.columns] *)
Definition has_column (df : DataFrame) (col : pystr) : bool :=
  bool_decide (col ∈ columns df).

(** [df[col]] for distinct column names: the cells of the column, top to
    bottom; a [KeyError] ([None]) for a name that is not a column. *)
Definition getitem (df : DataFrame) (col : pystr) : option (list value) :=
  i ← get_loc col (columns df);
  Some ((λ r, default VNa (cells r !! i)) <$> rows df).

(** [serie.apply(f)] for an [f] that returns text. *)
Definition series_apply (f : value -> pystr) (serie : list value) : list value :=
  (λ v, VStr (f v)) <$> serie.

(** [df[col] = serie]: overwrites the column in place, or appends it as the
    last column when the name is new. *)
Definition setitem (df : DataFrame) (col : pystr) (serie : list value) : DataFrame :=
  match get_loc col (columns df) with
  | Some i =>
      {| columns := columns df;
         rows := zip_with (λ r v, {| label := label r; cells := <[i:=v]> (cells r) |})
                          (rows df) serie |}
  | None =>
      {| columns := columns df ++ [col];
         rows := zip_with (λ r v, {| label := label r; cells := cells r ++ [v] |})
                          (rows df) serie |}
  end.

Definition colonne_testo : list pystr :=
  [lit "Nome"; lit "Nazione"; lit "Citta"; lit "Indirizzo"; lit "Delivery";
   lit "Online"; lit "Tipo_di_cucina"].

(** The body of the loop over [colonne_testo], for one name. *)
Definition pulisci_colonna (df : DataFrame) (col : pystr) : option DataFrame :=
  if has_column df col then
    serie ← getitem df col;
    Some (setitem df col (series_apply pulisci_testo serie))
  else Some df.

(** [for col in colonne: ...] *)
Fixpoint pulisci_colonne (colonne : list pystr) (df : DataFrame) : option DataFrame :=
  match colonne with
  | [] => Some df
  | col :: colonne' => df' ← pulisci_colonna df col; pulisci_colonne colonne' df'
  end.

(** What the loop body does to one row when the column stands at
    position [i]. *)
Definition clean_cell (i : nat) (r : Row) : Row :=
  {| label := label r;
     cells := <[i := VStr (pulisci_testo (default VNa (cells r !! i)))]> (cells r) |}.

(** The cell that [serie.apply(pulisci_testo)] makes of a cell. *)
Definition clean (v : value) : value := VStr (pulisci_testo v).

(** The positions of the names of [colonne] that the table has, in the
    order of [colonne]. *)
Definition positions (colonne cols : list pystr) : list nat :=
  omap (λ col, get_loc col cols) colonne.

(** A row after the loop body ran for the columns at positions [ps]. *)
Definition clean_row (ps : list nat) (r : Row) : Row :=
  foldl (λ r i, clean_cell i r) r ps.

(** [df'] has the columns and the row labels of [df], and the same value
    as [df] in every cell of a column whose name is not among [colonne]. *)
Definition unchanged_outside (colonne : list pystr) (df df' : DataFrame) : Prop :=
  columns df' = columns df
  ∧ Forall2 (λ r r', label r' = label r
                     ∧ ∀ j name, columns df !! j = Some name → name ∉ colonne →
                                 cells r' !! j = cells r !! j)
            (rows df) (rows df').

(** ** The writer *)

(** What [to_csv] hands to the csv writer: the delimiter and the records,
    each a list of fields. *)
Record CsvOut := { csv_sep : N; csv_records : list (list pystr) }.

Definition str_label (n : N) : pystr :=
  lit (NilZero.string_of_uint (N.to_uint n)).

(** A cell as a field: [na_rep] for a missing value, the text of the others. *)
Definition csv_field (na_rep : pystr) (v : value) : pystr :=
  if isna v then na_rep else str v.

(** [df.to_csv(path, index=..., sep=..., na_rep=...)]: the header, then the
    rows; with [index] each record starts with the row label, under an
    empty header field. *)
Definition to_csv (df : DataFrame) (index : bool) (sep : N) (na_rep : pystr) : CsvOut :=
  {| csv_sep := sep;
     csv_records :=
       ((if index then [[]] else []) ++ columns df)
       :: ((λ r, (if index then [str_label (label r)] else [])
                 ++ (csv_field na_rep <$> cells r)) <$> rows df) |}.

Definition sep : N := 59.

(** [df.to_csv(percorso_output, index=False, encoding='utf-8', sep=';',
    na_rep='')] *)
Definition salva (df : DataFrame) : CsvOut := to_csv df false sep (lit "").

(** The script from the loaded table on: drop the empty rows, clean the text
    columns, write. *)
Definition pulizia (df : DataFrame) : option CsvOut :=
  let df := dropna_all df in
  df ← pulisci_colonne colonne_testo df;
  Some (salva df).

(** ** The normaliser as the specification words it *)

(** Step 3: every non-ASCII character becomes its ASCII approximation, or
    is dropped when there is none. *)
Definition spec_transliterate (s : pystr) : pystr :=
  s ≫= (λ c, if c <? 0x80 then [c] else default [] (get_repl_str c)).

Definition normalize_spec (v : value) : pystr :=
  match v with
  | VNa => []
  | _ => spec_trim (spec_collapse (spec_filter (spec_transliterate (str v))))
  end.

End Pulizia.

Arguments value : clear implicits.
Arguments pyobj : clear implicits.
Arguments Row : clear implicits.
Arguments DataFrame : clear implicits.

(** ** A concrete instance *)

(** Booleans as the other scalars, with Python's [str] on them. *)
Definition str_bool (b : bool) : pystr :=
  if b then lit "True" else lit "False".

(** The entries of the transliteration tables for the five non-ASCII
    characters of the examples: in block 0x00, U+00C4, U+00D8, U+00E9 and
    U+00FC; in block 0x20, U+2013. *)
Definition unidecode_excerpt (block position : N) : option pystr :=
  match block, position with
  | 0x00, 0xC4 => Some (lit "A")
  | 0x00, 0xD8 => Some (lit "O")
  | 0x00, 0xE9 => Some (lit "e")
  | 0x00, 0xFC => Some (lit "u")
  | 0x20, 0x13 => Some (lit "-")
  | _, _ => None
  end.

(** A table of four text columns and a price column, with the row of the
    end-to-end example, a row that is missing everywhere and a row with a
    price only. *)
Definition tabella : DataFrame bool :=
  {| columns := [lit "Nome"; lit "Nazione"; lit "Citta"; lit "Indirizzo";
                 lit "Prezzo"];
     rows :=
       [ {| label := 0;
            cells := [VStr (lit "Caf" ++ [0xE9; 0x2013] ++ lit "M" ++ [0xFC]
                            ++ lit "nchner");
                      VStr ([0xC4] ++ lit "rea " ++ [0xD8] ++ lit "1");
                      VNa;
                      VStr (lit "12 Rue d'Or");
                      VStr [0x20AC; 0x20AC]] |};
         {| label := 1; cells := [VNa; VNa; VNa; VNa; VNa] |};
         {| label := 2; cells := [VNa; VNa; VNa; VNa; VStr (lit "$$$")] |} ] |}.

(** That table after the loop over the text columns. *)
Definition tabella_dopo : DataFrame bool :=
  {| columns := [lit "Nome"; lit "Nazione"; lit "Citta"; lit "Indirizzo";
                 lit "Prezzo"];
     rows :=
       [ {| label := 0;
            cells := [VStr (lit "Cafe-Munchner"); VStr (lit "Area O1");
                      VStr (lit ""); VStr (lit "12 Rue d Or");
                      VStr [0x20AC; 0x20AC]] |};
         {| label := 1;
            cells := [VStr (lit ""); VStr (lit ""); VStr (lit "");
                      VStr (lit ""); VNa] |};
         {| label := 2;
            cells := [VStr (lit ""); VStr (lit ""); VStr (lit "");
                      VStr (lit ""); VStr (lit "$$$")] |} ] |}.

(** What the script writes for that table. *)
Definition tabella_scritta : CsvOut :=
  {| csv_sep := 59;
     csv_records :=
       [ [lit "Nome"; lit "Nazione"; lit "Citta"; lit "Indirizzo";
          lit "Prezzo"];
         [lit "Cafe-Munchner"; lit "Area O1"; lit ""; lit "12 Rue d Or";
          [0x20AC; 0x20AC]];
         [lit ""; lit ""; lit ""; lit ""; lit "$$$"] ] |}.

(** A table whose rows are all empty. *)
Definition tabella_vuota : DataFrame bool :=
  {| columns := [lit "Nome"; lit "Prezzo"];
     rows := [ {| label := 0; cells := [VNa; VNa] |};
               {| label := 1; cells := [VNa; VNa] |} ] |}.

(** ** Character classes *)

Ltac cmp_cases :=
  repeat (match goal with
          | H : context [?a <=? ?b] |- _ => destruct (N.leb_spec a b)
          | H : context [?a =? ?b] |- _ => destruct (N.eqb_spec a b)
          | H : context [?a <? ?b] |- _ => destruct (N.ltb_spec a b)
          | |- context [?a <=? ?b] => destruct (N.leb_spec a b)
          | |- context [?a =? ?b] => destruct (N.eqb_spec a b)
          | |- context [?a <? ?b] => destruct (N.ltb_spec a b)
          end; simpl in *; try lia; try discriminate; try reflexivity).

Lemma allowed_ranges c : allowed c = true ↔ in_alphabet c.
Proof.
  unfold in_alphabet, allowed, in_range, hyphen, space. split.
  - intros H. cmp_cases.
  - intros H. cmp_cases.
Qed.

Lemma allowed_ascii c : allowed c = true → c < 0x80.
Proof. rewrite allowed_ranges. unfold in_alphabet, space, hyphen. lia. Qed.

(** Among the allowed characters, the space is the only whitespace. *)
Lemma allowed_isspace c : allowed c = true → isspace c = (c =? space).
Proof.
  rewrite allowed_ranges.
  unfold in_alphabet, isspace, in_range, space, hyphen. intros H.
  cmp_cases.
Qed.

Lemma isspace_space : isspace space = true.
Proof. reflexivity. Qed.

Lemma allowed_space : allowed space = true.
Proof. reflexivity. Qed.


(** ** Dropping a prefix *)

Lemma drop_while_suffix p (s : pystr) : drop_while p s `suffix_of` s.
Proof.
  induction s as [|c r IH]; simpl; [done|].
  destruct (p c); [by apply suffix_cons_r | done].
Qed.

Lemma drop_while_head p (s : pystr) c :
  head (drop_while p s) = Some c → p c = false.
Proof.
  induction s as [|d r IH]; simpl; [done|].
  destruct (p d) eqn:E; [done|]. simpl. by intros [= ->].
Qed.

Lemma drop_while_id p (s : pystr) :
  (∀ c, head s = Some c → p c = false) → drop_while p s = s.
Proof.
  destruct s as [|c r]; simpl; [done|]. intros H. by rewrite (H c).
Qed.

Lemma drop_while_ext p q (s : pystr) :
  Forall (λ c, p c = q c) s → drop_while p s = drop_while q s.
Proof.
  induction 1 as [|c r E _ IH]; simpl; [done|]. rewrite <- E.
  by destruct (p c).
Qed.

(** ** Strings with two consecutive spaces *)

Lemma double_spaceb_cons x (r : pystr) :
  double_spaceb (x :: r)
  = match r with
    | b :: _ => (x =? space) && (b =? space)
    | [] => false
    end || double_spaceb r.
Proof. done. Qed.

Lemma double_spaceb_true (s : pystr) :
  double_spaceb s = true ↔ double_space s.
Proof.
  split.
  - induction s as [|a r IH]; simpl; [done|].
    intros [H|H]%orb_true_iff.
    + destruct r as [|b r']; [done|].
      apply andb_true_iff in H as [->%N.eqb_eq ->%N.eqb_eq].
      by exists [], r'.
    + destruct (IH H) as (u & v & ->). by exists (a :: u), v.
  - intros (u & v & ->). induction u as [|x u IH]; [done|].
    change ((x :: u) ++ [space; space] ++ v)
      with (x :: (u ++ [space; space] ++ v)).
    rewrite double_spaceb_cons, IH. apply orb_true_r.
Qed.

Lemma double_spaceb_false (s : pystr) :
  double_spaceb s = false ↔ ¬ double_space s.
Proof.
  rewrite <- double_spaceb_true. by destruct (double_spaceb s).
Qed.

Lemma double_space_infix (u s v : pystr) :
  double_space s → double_space (u ++ s ++ v).
Proof.
  intros (a & b & ->). exists (u ++ a), (b ++ v).
  by rewrite <- !app_assoc.
Qed.

(** ** [strip] *)

Lemma lstrip_suffix s : lstrip s `suffix_of` s.
Proof. apply drop_while_suffix. Qed.

Lemma rstrip_prefix s : rstrip s `prefix_of` s.
Proof.
  unfold rstrip, lstrip.
  destruct (drop_while_suffix isspace (reverse s)) as [k E].
  exists (reverse k).
  rewrite <- (reverse_involutive s), E at 1. by rewrite reverse_app.
Qed.

(** What [strip] returns is a slice of its argument. *)
Lemma strip_infix s : ∃ u v, s = u ++ strip s ++ v.
Proof.
  destruct (lstrip_suffix s) as [u E].
  destruct (rstrip_prefix (lstrip s)) as [v F].
  exists u, v. unfold strip. by rewrite <- F.
Qed.

Lemma strip_Forall (P : N → Prop) s : Forall P s → Forall P (strip s).
Proof.
  destruct (strip_infix s) as (u & v & E). rewrite E at 1.
  by intros [_ [? _]%Forall_app]%Forall_app.
Qed.

Lemma strip_no_double_space s : ¬ double_space s → ¬ double_space (strip s).
Proof.
  destruct (strip_infix s) as (u & v & E). intros H D. apply H.
  rewrite E. by apply double_space_infix.
Qed.

Lemma strip_last s c : list.last (strip s) = Some c → isspace c = false.
Proof.
  unfold strip, rstrip, lstrip. rewrite last_reverse.
  apply drop_while_head.
Qed.

Lemma strip_head s c : head (strip s) = Some c → isspace c = false.
Proof.
  unfold strip. destruct (rstrip_prefix (lstrip s)) as [v F].
  destruct (rstrip (lstrip s)) as [|d t] eqn:E; [done|].
  simpl. intros [= ->]. apply (drop_while_head isspace s).
  fold (lstrip s). by rewrite F.
Qed.

Lemma lstrip_id s : (∀ c, head s = Some c → isspace c = false) → lstrip s = s.
Proof. apply drop_while_id. Qed.

Lemma rstrip_id s : (∀ c, list.last s = Some c → isspace c = false) → rstrip s = s.
Proof.
  intros H. unfold rstrip, lstrip. rewrite drop_while_id.
  - apply reverse_involutive.
  - intros c. rewrite head_reverse. apply H.
Qed.

(** ** The character filter *)

Lemma re_sub_class_fmap cls c0 (s : pystr) :
  re_sub_class cls [c0] s = (λ c, if cls c then c0 else c) <$> s.
Proof.
  unfold re_sub_class. induction s as [|c r IH]; [done|].
  rewrite bind_cons, IH, fmap_cons. by destruct (cls c).
Qed.

Lemma filter_all_allowed s :
  all_allowed (re_sub_class (λ c, negb (allowed c)) (lit " ") s).
Proof.
  change (lit " ") with [space]. rewrite re_sub_class_fmap.
  apply Forall_fmap, Forall_true. intros c. simpl.
  by destruct (allowed c) eqn:E.
Qed.

Lemma filter_id s :
  all_allowed s → re_sub_class (λ c, negb (allowed c)) (lit " ") s = s.
Proof.
  change (lit " ") with [space]. rewrite re_sub_class_fmap.
  induction 1 as [|c r E _ IH]; [done|].
  rewrite fmap_cons, IH, E. done.
Qed.

(** ** The whitespace collapse *)

Lemma collapse_all_allowed s :
  all_allowed s → all_allowed (collapse s) ∧ all_allowed (collapse_in s).
Proof.
  induction 1 as [|c r E _ [IH1 IH2]]; [done|]. simpl.
  destruct (isspace c); split; auto.
Qed.

(** After the collapse no whitespace follows a space; the rest of a match
    starts with a character that is not whitespace. *)
Lemma collapse_shape s :
  double_spaceb (collapse s) = false
  ∧ double_spaceb (collapse_in s) = false
  ∧ ∀ c, head (collapse_in s) = Some c → isspace c = false.
Proof.
  induction s as [|c r (IH1 & IH2 & IH3)]; [done|]. simpl.
  destruct (isspace c) eqn:E.
  - split; [|done]. rewrite double_spaceb_cons, IH2, orb_false_r.
    destruct (collapse_in r) as [|b t] eqn:F; [done|].
    simpl. apply N.eqb_neq. intros ->. by specialize (IH3 space eq_refl).
  - assert (double_spaceb (c :: collapse r) = false) as D.
    { rewrite double_spaceb_cons, IH1, orb_false_r.
      destruct (collapse r); [done|].
      apply andb_false_iff. left. apply N.eqb_neq. by intros ->. }
    repeat split; [done..|]. simpl. by intros d [= <-].
Qed.

(** On allowed characters without two consecutive spaces, the collapse
    changes nothing. *)
Lemma collapse_id s :
  all_allowed s → double_spaceb s = false →
  collapse s = s ∧ (head s ≠ Some space → collapse_in s = s).
Proof.
  induction 1 as [|c r E _ IH]; [done|].
  rewrite double_spaceb_cons. intros [D1 D2]%orb_false_iff.
  destruct (IH D2) as [IH1 IH2]. simpl.
  rewrite (allowed_isspace c E). destruct (N.eqb_spec c space) as [->|Hc].
  - split; [|done]. f_equal. apply IH2.
    destruct r as [|b t]; [done|]. simpl in *.
    apply N.eqb_neq in D1. congruence.
  - by rewrite IH1.
Qed.

(** The scan of [re.sub] computes the collapse of maximal runs. *)
Lemma collapse_spec s :
  collapse s = spec_collapse s
  ∧ collapse_in s = spec_collapse (drop_while isspace s).
Proof.
  induction s as [|c r [IH1 IH2]]; [by simp spec_collapse|].
  simpl. simp spec_collapse. destruct (isspace c) eqn:E; simpl.
  - by rewrite IH2.
  - simp spec_collapse. rewrite E. simpl. by rewrite IH1.
Qed.

(** The class of the script and the alphabet of the specification name the
    same characters. *)
Lemma allowed_spec_alphabet c :
  allowed c = bool_decide (c ∈ spec_alphabet).
Proof.
  destruct (decide (c < 0x80)) as [Hc|Hc].
  - assert (Forall (λ n, allowed (N.of_nat n)
                          = bool_decide (N.of_nat n ∈ spec_alphabet))
                   (seq 0 128)) as H.
    { apply (bool_decide_unpack _). by vm_compute. }
    rewrite list.Forall_forall in H. rewrite <- (N2Nat.id c).
    apply H, elem_of_seq. lia.
  - assert (Forall (λ c, c < 0x80) spec_alphabet) as H.
    { apply (bool_decide_unpack _). by vm_compute. }
    rewrite list.Forall_forall in H.
    rewrite bool_decide_eq_false_2 by (intros ?%H; lia).
    destruct (allowed c) eqn:E; [|done]. by apply allowed_ascii in E.
Qed.

Lemma filter_spec s :
  re_sub_class (λ c, negb (allowed c)) (lit " ") s = spec_filter s.
Proof.
  change (lit " ") with [space]. rewrite re_sub_class_fmap.
  unfold spec_filter. apply list_fmap_ext. intros _ c _.
  rewrite <- allowed_spec_alphabet. by destruct (allowed c).
Qed.

(** On allowed characters, stripping whitespace is stripping spaces. *)
Lemma strip_spec s : all_allowed s → strip s = spec_trim s.
Proof.
  intros H. unfold strip, rstrip, lstrip, spec_trim.
  assert (∀ t, all_allowed t →
               drop_while isspace t = drop_while (λ c, c =? space) t) as E.
  { intros t Ht. apply drop_while_ext.
    eapply list.Forall_impl; [exact Ht|]. apply allowed_isspace. }
  rewrite <- (E s H). rewrite E; [done|].
  apply Forall_reverse.
  destruct (drop_while_suffix isspace s) as [u F]. rewrite F in H.
  by apply Forall_app in H as [_ ?].
Qed.

(** * The field normaliser *)

Section Normaliser.

Context {scalar : Type}.
Variable str_scalar : scalar -> pystr.
Variable unidecode_table : N -> N -> option pystr.

Local Abbreviation unidecode := (unidecode unidecode_table).
Local Abbreviation get_repl_str := (get_repl_str unidecode_table).
Local Abbreviation str := (str str_scalar).
Local Abbreviation pulisci_testo := (pulisci_testo str_scalar unidecode_table).
Local Abbreviation normalize_spec := (normalize_spec str_scalar unidecode_table).

Lemma unidecode_ascii s : Forall (λ c, c < 0x80) s → unidecode s = s.
Proof.
  unfold unidecode. induction 1 as [|c r Hc _ IH]; [done|].
  rewrite bind_cons, IH. unfold get_repl_str.
  apply N.ltb_lt in Hc. by rewrite Hc.
Qed.

Lemma unidecode_spec s : unidecode s = spec_transliterate unidecode_table s.
Proof.
  unfold unidecode, spec_transliterate. induction s as [|c r IH]; [done|].
  rewrite !bind_cons, IH. f_equal. unfold get_repl_str.
  by destruct (c <? 0x80).
Qed.

Lemma pulisci_testo_present x :
  isna x = false →
  pulisci_testo x
  = strip (collapse (re_sub_class (λ c, negb (allowed c)) (lit " ")
                                  (unidecode (str x)))).
Proof. unfold pulisci_testo. by intros ->. Qed.

Lemma pulisci_testo_all_allowed x : all_allowed (pulisci_testo x).
Proof.
  destruct (isna x) eqn:E.
  - unfold pulisci_testo. rewrite E. constructor.
  - rewrite (pulisci_testo_present x E).
    apply strip_Forall, collapse_all_allowed, filter_all_allowed.
Qed.

Lemma pulisci_testo_cleaned x : cleaned (pulisci_testo x).
Proof.
  split; [|destruct (isna x) eqn:E].
  - eapply list.Forall_impl; [apply pulisci_testo_all_allowed|].
    intros c. apply allowed_ranges.
  - unfold pulisci_testo. rewrite E. repeat split; [done..|].
    apply double_spaceb_false. done.
  - rewrite (pulisci_testo_present x E). repeat split.
    + intros H%strip_head. done.
    + intros H%strip_last. done.
    + apply strip_no_double_space, double_spaceb_false, collapse_shape.
Qed.

Lemma cleaned_fixed s : cleaned s → pulisci_testo (VStr s) = s.
Proof.
  intros (Ha & Hh & Hl & Hd).
  assert (all_allowed s) as Ha'.
  { eapply list.Forall_impl; [exact Ha|]. intros c. apply allowed_ranges. }
  rewrite pulisci_testo_present by done. simpl.
  rewrite unidecode_ascii.
  2:{ eapply list.Forall_impl; [exact Ha'|]. apply allowed_ascii. }
  rewrite filter_id by done.
  destruct (collapse_id s Ha') as [-> _]; [by apply double_spaceb_false|].
  assert (∀ c, c ∈ s → c ≠ space → isspace c = false) as Hs.
  { intros c Hc Hne. rewrite list.Forall_forall in Ha'.
    rewrite (allowed_isspace c (Ha' c Hc)). by apply N.eqb_neq. }
  unfold strip. rewrite lstrip_id, rstrip_id; [done| |].
  - intros c Hc. apply Hs; [|congruence].
    apply last_Some in Hc as [l' ->].
    apply elem_of_app. right. apply list_elem_of_here.
  - intros c Hc. apply Hs; [|congruence].
    destruct s; simplify_eq/=. apply list_elem_of_here.
Qed.

(** C1. [pulisci_testo] is the sequence of steps of the specification, in
    its order: the empty string at once for a missing value; otherwise the
    text of the value, transliterated, filtered to the alphabet with a
    space for every other character, with every maximal whitespace run
    collapsed to one space, and with the leading and trailing spaces
    removed. *)
Theorem pulisci_testo_refines_spec x : pulisci_testo x = normalize_spec x.
Proof.
  destruct (isna x) eqn:E; [by destruct x|].
  rewrite (pulisci_testo_present x E).
  assert (normalize_spec x
          = spec_trim (spec_collapse (spec_filter
              (spec_transliterate unidecode_table (str x))))) as ->.
  { by destruct x. }
  rewrite <- unidecode_spec, <- filter_spec.
  destruct (collapse_spec (re_sub_class (λ c, negb (allowed c)) (lit " ")
                                        (unidecode (str x)))) as [<- _].
  apply strip_spec, collapse_all_allowed, filter_all_allowed.
Qed.

(** C2. [pulisci_testo] is idempotent: cleaning the cleaned text of any
    value, a string, another scalar or a missing value, gives that text
    again. *)
Theorem pulisci_testo_idempotent x :
  pulisci_testo (VStr (pulisci_testo x)) = pulisci_testo x.
Proof. apply cleaned_fixed, pulisci_testo_cleaned. Qed.

(** C3. Alphabet closure: every character of [pulisci_testo x] is one of
    A-Z, a-z, 0-9, the space or the hyphen. *)
Theorem pulisci_testo_alphabet x c :
  c ∈ pulisci_testo x →
  (65 ≤ c ≤ 90) ∨ (97 ≤ c ≤ 122) ∨ (48 ≤ c ≤ 57) ∨ c = space ∨ c = hyphen.
Proof.
  destruct (pulisci_testo_cleaned x) as [H _].
  rewrite list.Forall_forall in H. apply H.
Qed.

(** C4. [pulisci_testo x] has no two consecutive spaces, does not start
    with a space and does not end with one. *)
Theorem pulisci_testo_spaces x :
  (¬ ∃ a b, pulisci_testo x = a ++ [space; space] ++ b)
  ∧ head (pulisci_testo x) ≠ Some space
  ∧ list.last (pulisci_testo x) ≠ Some space.
Proof.
  destruct (pulisci_testo_cleaned x) as (_ & Hh & Hl & Hd). done.
Qed.

(** C10. A string that is already cleaned (over the alphabet, no space at
    either end, no two consecutive spaces) is a fixed point of
    [pulisci_testo]. *)
Theorem pulisci_testo_fixed_point s :
  (∀ c, c ∈ s →
     (65 ≤ c ≤ 90) ∨ (97 ≤ c ≤ 122) ∨ (48 ≤ c ≤ 57) ∨ c = space ∨ c = hyphen) →
  head s ≠ Some space →
  list.last s ≠ Some space →
  (¬ ∃ a b, s = a ++ [space; space] ++ b) →
  pulisci_testo (VStr s) = s.
Proof.
  intros Ha Hh Hl Hd. apply cleaned_fixed. repeat split; try done.
  by apply list.Forall_forall.
Qed.

(** C8. The end-to-end examples, for transliteration tables that send
    U+00E9 to e, U+2013 to the hyphen, U+00FC to u, U+00C4 to A and U+00D8
    to O: "Café–Münchner" gives "Cafe-Munchner",
    "Ärea Ø1" gives "Area O1", "12 Rue d'Or" gives "12 Rue d Or"
    and "Italian/French!!" gives "Italian French". *)
Theorem pulisci_testo_examples :
  unidecode_table 0x00 0xE9 = Some (lit "e") →
  unidecode_table 0x20 0x13 = Some (lit "-") →
  unidecode_table 0x00 0xFC = Some (lit "u") →
  unidecode_table 0x00 0xC4 = Some (lit "A") →
  unidecode_table 0x00 0xD8 = Some (lit "O") →
  pulisci_testo (VStr (lit "Caf" ++ [0xE9; 0x2013] ++ lit "M" ++ [0xFC]
                       ++ lit "nchner"))
  = lit "Cafe-Munchner"
  ∧ pulisci_testo (VStr ([0xC4] ++ lit "rea " ++ [0xD8] ++ lit "1"))
    = lit "Area O1"
  ∧ pulisci_testo (VStr (lit "12 Rue d'Or")) = lit "12 Rue d Or"
  ∧ pulisci_testo (VStr (lit "Italian/French!!")) = lit "Italian French".
Proof.
  intros He Hd Hu HA HO. vm_compute in He, Hd, Hu, HA, HO.
  repeat split; vm_compute; rewrite ?He, ?Hd, ?Hu, ?HA, ?HO; reflexivity.
Qed.

End Normaliser.

(** ** Calls of the field normaliser and their exceptions *)

Section NormaliserCalls.

Context {scalar : Type}.
Variable str_scalar : scalar -> pystr.
Variable unidecode_table : N -> N -> option pystr.
Variable str_list : list (value scalar) -> pystr.

Local Abbreviation pulisci_testo := (pulisci_testo str_scalar unidecode_table).
Local Abbreviation pulisci_testo_py :=
  (pulisci_testo_py str_scalar unidecode_table str_list).

(** The call has an exception to raise: on a list of two or more scalars
    the test of [pd.isna(testo)] is a [ValueError]. *)
Lemma pulisci_testo_py_list v0 v1 vs :
  pulisci_testo_py (PyList v0 v1 vs) = Raise ValueError.
Proof. done. Qed.

(** C5. [pulisci_testo] is total with no error condition on its inputs:
    called on any scalar value, a string, the missing value or another
    scalar, it raises nothing and returns a string, the one that the
    steps of the function compute; called on the missing value and on
    the empty string it returns the empty string. *)
Theorem pulisci_testo_total :
  (∀ v, pulisci_testo_py (Scalar v) = Ok (pulisci_testo v))
  ∧ pulisci_testo_py (Scalar VNa) = Ok []
  ∧ pulisci_testo_py (Scalar (VStr [])) = Ok [].
Proof.
  repeat split. intros v. unfold pulisci_testo_py, pulisci_testo.
  cbn [pd_isna truth str_obj]. by destruct (isna v).
Qed.

End NormaliserCalls.

(** * The table *)

Section Table.

Context {scalar : Type}.
Variable str_scalar : scalar -> pystr.
Variable unidecode_table : N -> N -> option pystr.

Local Abbreviation value := (value scalar).
Local Abbreviation Row := (Row scalar).
Local Abbreviation DataFrame := (DataFrame scalar).
Local Abbreviation pulisci_testo := (pulisci_testo str_scalar unidecode_table).
Local Abbreviation pulisci_colonna := (pulisci_colonna str_scalar unidecode_table).
Local Abbreviation pulisci_colonne := (pulisci_colonne str_scalar unidecode_table).
Local Abbreviation clean_cell := (clean_cell str_scalar unidecode_table).
Local Abbreviation salva := (salva str_scalar).

(** ** Column positions *)

Lemma get_loc_Some col (cols : list pystr) i :
  get_loc col cols = Some i → cols !! i = Some col.
Proof.
  revert i. induction cols as [|c cols IH]; intros i; simpl; [done|].
  case_decide as E; [by intros [= <-]; subst|].
  destruct (get_loc col cols) as [k|]; [|done].
  intros [= <-]. by apply IH.
Qed.

Lemma get_loc_elem_of col (cols : list pystr) :
  col ∈ cols → is_Some (get_loc col cols).
Proof.
  induction 1 as [c cols|c d cols _ IH]; simpl.
  - rewrite decide_True by done. by eexists.
  - case_decide; [by eexists|]. destruct IH as [k ->]. by eexists.
Qed.

(** ** The loop body *)

Lemma zip_with_apply {A B C} (f : A → B → C) (g : A → B) (l : list A) :
  zip_with f l (g <$> l) = (λ x, f x (g x)) <$> l.
Proof.
  induction l as [|x l IH]; [done|].
  rewrite !fmap_cons. simpl. by rewrite IH.
Qed.

Lemma pulisci_colonna_present (df : DataFrame) col i :
  get_loc col (columns df) = Some i →
  pulisci_colonna df col
  = Some {| columns := columns df; rows := clean_cell i <$> rows df |}.
Proof.
  intros E. unfold pulisci_colonna, has_column, getitem, setitem.
  rewrite bool_decide_eq_true_2.
  2:{ apply list_elem_of_lookup. exists i. by apply get_loc_Some. }
  rewrite E. simpl. f_equal. f_equal. unfold series_apply.
  rewrite <- list_fmap_compose. by rewrite zip_with_apply.
Qed.

Lemma pulisci_colonna_absent (df : DataFrame) col :
  col ∉ columns df → pulisci_colonna df col = Some df.
Proof.
  intros E. unfold pulisci_colonna, has_column.
  by rewrite bool_decide_eq_false_2.
Qed.

(** ** The frame of the loop *)

Lemma unchanged_outside_refl colonne (df : DataFrame) :
  unchanged_outside colonne df df.
Proof. split; [done|]. by apply Forall_Forall2_diag, Forall_true. Qed.

Lemma unchanged_outside_step (df : DataFrame) col :
  ∃ df', pulisci_colonna df col = Some df' ∧ unchanged_outside [col] df df'.
Proof.
  destruct (decide (col ∈ columns df)) as [Hin|Hout].
  - destruct (get_loc_elem_of _ _ Hin) as [i Hi].
    eexists. split; [by apply pulisci_colonna_present|].
    split; [done|]. simpl. apply Forall2_fmap_r, Forall_Forall2_diag, Forall_true.
    intros r. split; [done|]. intros j name Hj Hname. simpl.
    apply list_lookup_insert_ne. intros <-.
    apply get_loc_Some in Hi. rewrite Hi in Hj. injection Hj as <-.
    apply Hname, list_elem_of_here.
  - exists df. split; [by apply pulisci_colonna_absent|].
    apply unchanged_outside_refl.
Qed.

Lemma unchanged_outside_cons col colonne (df df' df'' : DataFrame) :
  unchanged_outside [col] df df' → unchanged_outside colonne df' df'' →
  unchanged_outside (col :: colonne) df df''.
Proof.
  intros [C1 R1] [C2 R2]. split; [congruence|].
  eapply Forall2_trans; [|exact R1|exact R2]. simpl.
  intros r r' r'' [L1 F1] [L2 F2]. split; [congruence|].
  intros j name Hj [Hne Hname]%not_elem_of_cons.
  rewrite (F2 j name), (F1 j name); [done|done| |by rewrite C1|done].
  by intros ->%list_elem_of_singleton.
Qed.

Lemma pulisci_colonne_unchanged colonne (df : DataFrame) :
  ∃ df', pulisci_colonne colonne df = Some df'
         ∧ unchanged_outside colonne df df'.
Proof.
  revert df. induction colonne as [|col colonne IH]; intros df; simpl.
  - exists df. split; [done|]. apply unchanged_outside_refl.
  - destruct (unchanged_outside_step df col) as (df1 & -> & U1). simpl.
    destruct (IH df1) as (df2 & -> & U2). exists df2. split; [done|].
    by eapply unchanged_outside_cons.
Qed.

(** A text column that the table has ends up cleaned, cell by cell, when
    the column names of the table are distinct. *)
Lemma clean_cell_other i j (r : Row) :
  i ≠ j → cells (clean_cell i r) !! j = cells r !! j.
Proof. intros H. by apply list_lookup_insert_ne. Qed.

Lemma clean_cell_same i (r : Row) v :
  cells r !! i = Some v →
  cells (clean_cell i r) !! i = Some (VStr (pulisci_testo v)).
Proof.
  intros H. simpl. rewrite H. simpl.
  apply list_lookup_insert_eq. by eapply lookup_lt_Some.
Qed.

Lemma pulisci_colonne_cleans colonne (df df' : DataFrame) :
  NoDup colonne → NoDup (columns df) →
  pulisci_colonne colonne df = Some df' →
  ∀ i j name r r' v,
    name ∈ colonne → columns df !! j = Some name →
    rows df !! i = Some r → rows df' !! i = Some r' →
    cells r !! j = Some v →
    cells r' !! j = Some (VStr (pulisci_testo v)).
Proof.
  intros Hnd. revert df. induction Hnd as [|col rest Hcol Hrest IH];
    intros df Hcols E i j name r r' v Hname Hj Hr Hr' Hv.
  { by apply not_elem_of_nil in Hname. }
  simpl in E. destruct (decide (col ∈ columns df)) as [Hin|Hout].
  - destruct (get_loc_elem_of _ _ Hin) as [k Hk].
    rewrite (pulisci_colonna_present df col k Hk) in E. simpl in E.
    pose proof (get_loc_Some _ _ _ Hk) as Hk'.
    apply elem_of_cons in Hname as [->|Hname].
    + assert (k = j) as -> by (by eapply NoDup_lookup).
      destruct (pulisci_colonne_unchanged rest
                  {| columns := columns df; rows := clean_cell j <$> rows df |})
        as (df2 & E2 & _ & R).
      rewrite E in E2. injection E2 as <-. simpl in R.
      assert ((clean_cell j <$> rows df) !! i = Some (clean_cell j r)) as Hr1.
      { by rewrite list_lookup_fmap, Hr. }
      destruct (Forall2_lookup_lr _ _ _ _ _ _ R Hr1 Hr') as [_ F].
      rewrite (F j col Hj Hcol). by apply clean_cell_same.
    + apply (IH {| columns := columns df; rows := clean_cell k <$> rows df |}
                Hcols E i j name (clean_cell k r) r' v); try done.
      * cbn [rows]. by rewrite list_lookup_fmap, Hr.
      * rewrite clean_cell_other; [done|]. intros ->.
        rewrite Hk' in Hj. injection Hj as <-. done.
  - rewrite (pulisci_colonna_absent df col Hout) in E. simpl in E.
    apply elem_of_cons in Hname as [->|Hname].
    + destruct Hout. apply list_elem_of_lookup. by exists j.
    + by apply (IH df Hcols E i j name r r' v).
Qed.

(** ** The row filter *)

Lemma forallb_isna_false (vs : list value) :
  forallb isna vs = false ↔ ∃ v, v ∈ vs ∧ v ≠ VNa.
Proof.
  induction vs as [|v vs IH]; simpl.
  - split; [done|]. by intros (v & ?%not_elem_of_nil & _).
  - rewrite andb_false_iff, IH. split.
    + intros [H|(w & Hw & Hne)].
      * exists v. split; [apply list_elem_of_here|]. by intros ->.
      * exists w. split; [by apply list_elem_of_further|done].
    + intros (w & [->|Hw]%elem_of_cons & Hne).
      * left. by destruct v.
      * right. by exists w.
Qed.

(** C6. Row filtering: after [dropna(how='all')] the columns are those of
    the input; a row is in the table exactly when it was in the input and
    has at least one field that is not missing, so every row whose fields
    are all missing is gone and every other row is kept; and the kept rows
    are in the order of the input. *)
Theorem dropna_all_rows (df : DataFrame) :
  columns (dropna_all df) = columns df
  ∧ (∀ r, r ∈ rows (dropna_all df) ↔ r ∈ rows df ∧ ∃ v, v ∈ cells r ∧ v ≠ VNa)
  ∧ rows (dropna_all df) `sublist_of` rows df.
Proof.
  split; [done|]. split.
  - intros r. simpl. rewrite list_elem_of_filter, forallb_isna_false. tauto.
  - apply sublist_filter.
Qed.

(** C7. Column scoping, on a table with distinct column names: the loop
    over the text columns never fails; it keeps the columns and the number
    of rows of the table; every cell of a column whose name is not one of
    Nome, Nazione, Citta, Indirizzo, Delivery, Online, Tipo_di_cucina
    keeps its value, and the cells of the text columns that the table has
    are the ones replaced, each by its cleaned text; for a text column
    that the table does not have, the loop body leaves the table as it
    is. *)
Theorem pulisci_colonne_frame (df : DataFrame) :
  NoDup (columns df) →
  ∃ df', pulisci_colonne colonne_testo df = Some df'
    ∧ columns df' = columns df
    ∧ length (rows df') = length (rows df)
    ∧ (∀ i j name r r',
         rows df !! i = Some r → rows df' !! i = Some r' →
         columns df !! j = Some name → name ∉ colonne_testo →
         cells r' !! j = cells r !! j)
    ∧ (∀ i j name r r' v,
         rows df !! i = Some r → rows df' !! i = Some r' →
         columns df !! j = Some name → name ∈ colonne_testo →
         cells r !! j = Some v →
         cells r' !! j = Some (VStr (pulisci_testo v)))
    ∧ (∀ col, col ∈ colonne_testo → col ∉ columns df →
              pulisci_colonna df col = Some df).
Proof.
  intros Hcols.
  destruct (pulisci_colonne_unchanged colonne_testo df) as (df' & E & C & R).
  exists df'. repeat split; [done|done|by erewrite <- Forall2_length| | |].
  - intros i j name r r' Hr Hr' Hj Hname.
    destruct (Forall2_lookup_lr _ _ _ _ _ _ R Hr Hr') as [_ F]. eauto.
  - intros i j name r r' v Hr Hr' Hj Hname Hv.
    eapply (pulisci_colonne_cleans colonne_testo df df'); try done.
    apply (bool_decide_unpack _). by vm_compute.
  - intros col _. apply pulisci_colonna_absent.
Qed.

(** ** The writer *)

(** C9. Writer contract: the script's [to_csv] call uses the semicolon;
    its first record is the header, the column names in the order of the
    table; then comes one record per row, in the order of the table, with
    one field per cell and none for the row label; a missing cell is
    written as the empty field, any other cell as its text. *)
Theorem salva_contract (df : DataFrame) :
  csv_sep (salva df) = 59
  ∧ head (csv_records (salva df)) = Some (columns df)
  ∧ length (tail (csv_records (salva df))) = length (rows df)
  ∧ ∀ i r, rows df !! i = Some r →
      ∃ record, tail (csv_records (salva df)) !! i = Some record
        ∧ length record = length (cells r)
        ∧ ∀ j v, cells r !! j = Some v →
            record !! j = Some (if isna v then [] else str str_scalar v).
Proof.
  repeat split; simpl.
  - by rewrite length_fmap.
  - intros i r Hr. eexists. rewrite list_lookup_fmap, Hr. simpl.
    split; [done|]. split; [by rewrite length_fmap|].
    intros j v Hv. by rewrite list_lookup_fmap, Hv.
Qed.

(** With [index=True] every record would start with one more field. *)
Lemma to_csv_index_fields (df : DataFrame) index na_rep i r :
  rows df !! i = Some r →
  ∃ record,
    tail (csv_records (to_csv str_scalar df index sep na_rep)) !! i = Some record
    ∧ length record
      = ((if index then 1 else 0) + length (cells r))%nat.
Proof.
  intros Hr. eexists. simpl. rewrite list_lookup_fmap, Hr. simpl.
  split; [done|]. rewrite length_app, length_fmap. by destruct index.
Qed.

End Table.

(** * The script on the concrete instance *)

Example pulizia_tabella :
  pulizia str_bool unidecode_excerpt tabella
  = Some {| csv_sep := 59;
            csv_records :=
              [ [lit "Nome"; lit "Nazione"; lit "Citta"; lit "Indirizzo";
                 lit "Prezzo"];
                [lit "Cafe-Munchner"; lit "Area O1"; lit ""; lit "12 Rue d Or";
                 [0x20AC; 0x20AC]];
                [lit ""; lit ""; lit ""; lit ""; lit "$$$"] ] |}.
Proof. by vm_compute. Qed.

Lemma pulisci_testo_alphabet_witness :
  82 ∈ pulisci_testo str_bool unidecode_excerpt (VStr (lit "12 Rue d'Or"))
  ∧ ((65 ≤ 82 ≤ 90) ∨ (97 ≤ 82 ≤ 122) ∨ (48 ≤ 82 ≤ 57)
     ∨ 82 = space ∨ 82 = hyphen).
Proof.
  assert (82 ∈ pulisci_testo str_bool unidecode_excerpt
                             (VStr (lit "12 Rue d'Or"))) as H.
  { apply (bool_decide_unpack _). vm_compute. exact I. }
  split; [exact H|].
  exact (pulisci_testo_alphabet str_bool unidecode_excerpt _ _ H).
Defined.

Lemma pulisci_testo_examples_witness :
  pulisci_testo str_bool unidecode_excerpt
    (VStr (lit "Caf" ++ [0xE9; 0x2013] ++ lit "M" ++ [0xFC] ++ lit "nchner"))
  = lit "Cafe-Munchner"
  ∧ pulisci_testo str_bool unidecode_excerpt
      (VStr ([0xC4] ++ lit "rea " ++ [0xD8] ++ lit "1"))
    = lit "Area O1"
  ∧ pulisci_testo str_bool unidecode_excerpt (VStr (lit "12 Rue d'Or"))
    = lit "12 Rue d Or"
  ∧ pulisci_testo str_bool unidecode_excerpt (VStr (lit "Italian/French!!"))
    = lit "Italian French".
Proof.
  apply (pulisci_testo_examples str_bool unidecode_excerpt); reflexivity.
Defined.

Lemma pulisci_testo_fixed_point_witness :
  pulisci_testo str_bool unidecode_excerpt (VStr (lit "12 Rue d-Or"))
  = lit "12 Rue d-Or".
Proof.
  apply (pulisci_testo_fixed_point str_bool unidecode_excerpt).
  - intros c Hc. apply allowed_ranges.
    assert (all_allowed (lit "12 Rue d-Or")) as H.
    { apply (bool_decide_unpack _). vm_compute. exact I. }
    rewrite list.Forall_forall in H. by apply H.
  - vm_compute. discriminate.
  - vm_compute. discriminate.
  - apply double_spaceb_false. reflexivity.
Defined.

Lemma pulisci_colonne_frame_witness :
  NoDup (columns tabella)
  ∧ ∃ df', pulisci_colonne str_bool unidecode_excerpt colonne_testo tabella
           = Some df'
    ∧ columns df' = columns tabella
    ∧ length (rows df') = length (rows tabella)
    ∧ (∀ i j name r r',
         rows tabella !! i = Some r → rows df' !! i = Some r' →
         columns tabella !! j = Some name → name ∉ colonne_testo →
         cells r' !! j = cells r !! j)
    ∧ (∀ i j name r r' v,
         rows tabella !! i = Some r → rows df' !! i = Some r' →
         columns tabella !! j = Some name → name ∈ colonne_testo →
         cells r !! j = Some v →
         cells r' !! j
         = Some (VStr (pulisci_testo str_bool unidecode_excerpt v)))
    ∧ (∀ col, col ∈ colonne_testo → col ∉ columns tabella →
              pulisci_colonna str_bool unidecode_excerpt tabella col
              = Some tabella).
Proof.
  assert (NoDup (columns tabella)) as H.
  { apply (bool_decide_unpack _). vm_compute. exact I. }
  split; [exact H|].
  exact (pulisci_colonne_frame str_bool unidecode_excerpt tabella H).
Defined.

(** * Words of the cleaned text *)

(** ** Runs and their join *)

Lemma runs_in_nonempty p s : runs_in p s ≠ [].
Proof.
  destruct s as [|c r]; simpl; [done|].
  destruct (p c); [|done]. by destruct (runs_in p r).
Qed.

(** Every run is non-empty and made of characters of [p]; inside a run
    this holds from the second element on, and the head is made of
    characters of [p]. *)
Lemma runs_sound p s :
  Forall (λ w, w ≠ [] ∧ Forall (λ c, p c = true) w) (runs p s)
  ∧ Forall (λ c, p c = true) (default [] (head (runs_in p s)))
  ∧ Forall (λ w, w ≠ [] ∧ Forall (λ c, p c = true) w) (tail (runs_in p s)).
Proof.
  induction s as [|c r (IH1 & IH2 & IH3)]; simpl; [by repeat constructor|].
  destruct (p c) eqn:E.
  - pose proof (runs_in_nonempty p r) as Hne.
    destruct (runs_in p r) as [|w ws]; [done|]. simpl in *.
    repeat split; auto.
  - simpl. repeat split; auto.
Qed.

Lemma runs_nonempty p s : Forall (λ w, w ≠ []) (runs p s).
Proof.
  eapply list.Forall_impl; [apply (runs_sound p s)|]. by intros w [? _].
Qed.

Lemma join_words_cons w ws :
  join_words (w :: ws) = match ws with [] => w | _ :: _ => w ++ space :: join_words ws end.
Proof. done. Qed.

Lemma join_words_cons_head c ws :
  ws ≠ [] → join_words (cons_head c ws) = c :: join_words ws.
Proof. destruct ws as [|w [|w' ws]]; done. Qed.

Lemma join_words_nil ws :
  Forall (λ w, w ≠ []) ws → join_words ws = [] → ws = [].
Proof.
  destruct 1 as [|w ws Hw _]; [done|]. rewrite join_words_cons.
  destruct ws; [done|]. by destruct w.
Qed.

(** ** [rstrip], one character at a time *)

Lemma drop_while_app p (a b : pystr) :
  drop_while p (a ++ b)
  = match drop_while p a with
    | [] => drop_while p b
    | d :: t => (d :: t) ++ b
    end.
Proof.
  induction a as [|c a IH]; simpl; [by destruct (drop_while p b)|].
  by destruct (p c).
Qed.

Lemma rstrip_cons c s :
  rstrip (c :: s)
  = match rstrip s with
    | [] => if isspace c then [] else [c]
    | _ :: _ => c :: rstrip s
    end.
Proof.
  unfold rstrip, lstrip. rewrite reverse_cons, drop_while_app.
  destruct (drop_while isspace (reverse s)) as [|d t] eqn:E.
  - rewrite reverse_nil. simpl. by destruct (isspace c).
  - rewrite reverse_app, reverse_singleton. simpl.
    destruct (reverse (d :: t)) eqn:F; [|done].
    apply (f_equal reverse) in F. rewrite reverse_involutive in F. done.
Qed.

Lemma rstrip_cons_keep c s : isspace c = false → rstrip (c :: s) = c :: rstrip s.
Proof. intros E. rewrite rstrip_cons, E. by destruct (rstrip s). Qed.

(** ** The filter and the collapse as one scan *)

Lemma word_char_isspace c : word_char c = true → isspace c = false.
Proof.
  unfold word_char. intros [Ha Hs]%andb_true_iff.
  rewrite (allowed_isspace c Ha). by apply negb_true_iff.
Qed.

Lemma isspace_filtered c :
  isspace (if negb (allowed c) then space else c) = junk c.
Proof.
  unfold junk, word_char. destruct (allowed c) eqn:Ha; simpl; [|done].
  rewrite (allowed_isspace c Ha). by destruct (c =? space).
Qed.

Lemma filtered_word_char c :
  junk c = false → (if negb (allowed c) then space else c) = c.
Proof.
  unfold junk, word_char. destruct (allowed c); [done|]. simpl. done.
Qed.

Lemma collapse_filter t :
  collapse (re_sub_class (λ c, negb (allowed c)) (lit " ") t) = scan t
  ∧ collapse_in (re_sub_class (λ c, negb (allowed c)) (lit " ") t) = scan_in t.
Proof.
  change (lit " ") with [space]. rewrite re_sub_class_fmap.
  induction t as [|c r [IH1 IH2]]; [done|].
  rewrite fmap_cons. simpl. rewrite isspace_filtered.
  destruct (junk c) eqn:E.
  - by rewrite IH2.
  - by rewrite (filtered_word_char c E), IH1.
Qed.

Lemma scan_in_head t c : head (scan_in t) = Some c → isspace c = false.
Proof.
  induction t as [|d r IH]; simpl; [done|].
  destruct (junk d) eqn:E; [done|]. simpl. intros [= <-].
  apply word_char_isspace. by apply negb_false_iff.
Qed.

Lemma lstrip_scan t : lstrip (scan t) = scan_in t.
Proof.
  destruct t as [|c r]; simpl; [done|].
  destruct (junk c) eqn:E.
  - unfold lstrip. simpl. apply drop_while_id, scan_in_head.
  - apply lstrip_id. simpl. intros d [= <-].
    apply word_char_isspace. by apply negb_false_iff.
Qed.

(** After a separator the scan writes the words that are left, inside a
    word it writes the rest of the word first. *)
Lemma rstrip_scan t :
  rstrip (scan_in t) = join_words (runs word_char t)
  ∧ rstrip (scan t) = join_words (runs_in word_char t).
Proof.
  induction t as [|c r [IH1 IH2]]; [done|]. simpl.
  assert (junk c = negb (word_char c)) as J by done.
  destruct (word_char c) eqn:E; rewrite J; simpl.
  - rewrite rstrip_cons_keep by (by apply word_char_isspace).
    rewrite join_words_cons_head by apply runs_in_nonempty.
    by rewrite IH2.
  - split; [done|]. change ([space] ++ scan_in r) with (space :: scan_in r).
    rewrite rstrip_cons, IH1.
    pose proof (join_words_nil _ (runs_nonempty word_char r)) as Hnil.
    destruct (runs word_char r) as [|w ws] eqn:F; [done|].
    destruct (join_words (w :: ws)) eqn:G; [by specialize (Hnil eq_refl)|].
    done.
Qed.

(** What the three steps after the transliteration compute. *)
Lemma strip_collapse_filter t :
  strip (collapse (re_sub_class (λ c, negb (allowed c)) (lit " ") t))
  = join_words (runs word_char t).
Proof.
  destruct (collapse_filter t) as [-> _]. unfold strip.
  rewrite lstrip_scan. apply rstrip_scan.
Qed.

(** ** More on runs *)

Lemma concat_cons_head c ws : ws ≠ [] → concat (cons_head c ws) = c :: concat ws.
Proof. by destruct ws. Qed.

Lemma concat_runs p s :
  concat (runs p s) = filter (λ c, p c = true) s
  ∧ concat (runs_in p s) = filter (λ c, p c = true) s.
Proof.
  induction s as [|c r [IH1 IH2]]; [done|]. simpl.
  rewrite filter_cons. destruct (p c) eqn:E.
  - rewrite decide_True by done.
    rewrite concat_cons_head by apply runs_in_nonempty. by rewrite IH2.
  - rewrite decide_False by done. done.
Qed.

Lemma runs_nil p s : runs p s = [] ↔ Forall (λ c, p c = false) s.
Proof.
  induction s as [|c r IH]; simpl; [done|].
  destruct (p c) eqn:E.
  - split.
    + pose proof (runs_in_nonempty p r). by destruct (runs_in p r).
    + intros H. apply list.Forall_cons in H as [H _]. congruence.
  - rewrite IH. split; [by constructor|]. by intros [_ ?]%list.Forall_cons.
Qed.

(** A separator ends the run before it and starts the runs after it
    afresh. *)
Lemma runs_app_junk p s c r :
  p c = false →
  runs p (s ++ c :: r) = runs p s ++ runs p r
  ∧ runs_in p (s ++ c :: r) = runs_in p s ++ runs p r.
Proof.
  intros E. induction s as [|d s [IH1 IH2]]; simpl; [by rewrite E|].
  pose proof (runs_in_nonempty p s) as Hne.
  destruct (p d); rewrite ?IH1, ?IH2; [|done].
  by destruct (runs_in p s).
Qed.

Lemma runs_junk_prefix p j b :
  Forall (λ c, p c = false) j → runs p (j ++ b) = runs p b.
Proof. induction 1 as [|c j E _ IH]; simpl; [done|]. by rewrite E. Qed.

Lemma join2_nil_r a : join2 a [] = a.
Proof. by destruct a. Qed.

Lemma join_words_app ws1 ws2 :
  Forall (λ w, w ≠ []) ws1 → Forall (λ w, w ≠ []) ws2 →
  join_words (ws1 ++ ws2) = join2 (join_words ws1) (join_words ws2).
Proof.
  intros H1 H2. induction H1 as [|w ws1 Hw H1 IH]; [done|].
  pose proof (join_words_nil ws2 H2) as Hnil.
  destruct ws1 as [|w' ws1].
  - simpl. destruct ws2 as [|v ws2]; [by rewrite join2_nil_r|].
    destruct (join_words (v :: ws2)) eqn:F; [by specialize (Hnil eq_refl)|].
    by destruct w.
  - change ((w :: w' :: ws1) ++ ws2) with (w :: (w' :: ws1) ++ ws2).
    rewrite join_words_cons. change ((w' :: ws1) ++ ws2) with (w' :: ws1 ++ ws2).
    change (w' :: ws1 ++ ws2) with ((w' :: ws1) ++ ws2). rewrite IH.
    rewrite (join_words_cons w (w' :: ws1)).
    pose proof (join_words_nil (w' :: ws1) H1) as Hnil'.
    destruct (join_words (w' :: ws1)) as [|d t] eqn:G;
      [by specialize (Hnil' eq_refl)|].
    destruct (join_words ws2) as [|e u].
    + by destruct w.
    + destruct w; [done|]. simpl. by rewrite <- app_assoc.
Qed.

Lemma filter_join_words ws :
  Forall (Forall (λ c, c ≠ space)) ws →
  filter (λ c, c ≠ space) (join_words ws) = concat ws.
Proof.
  induction 1 as [|w ws Hw _ IH]; [done|]. rewrite join_words_cons.
  assert (filter (λ c, c ≠ space) w = w) as Fw.
  { clear -Hw. induction Hw as [|c w Hc _ IH]; [done|].
    by rewrite filter_cons, decide_True, IH. }
  destruct ws as [|w' ws].
  - simpl. by rewrite app_nil_r.
  - rewrite list.filter_app, filter_cons, decide_False by (by intros []).
    by rewrite Fw, IH.
Qed.

(** ** Lengths *)

Lemma re_sub_plus_length cls c0 s :
  (length (re_sub_plus cls [c0] s) ≤ length s
   ∧ length (re_sub_plus_in cls [c0] s) ≤ length s)%nat.
Proof.
  induction s as [|c r [IH1 IH2]]; simpl; [lia|].
  destruct (cls c); simpl; lia.
Qed.

Lemma strip_length s : (length (strip s) ≤ length s)%nat.
Proof.
  destruct (strip_infix s) as (u & v & E). rewrite E at 2.
  rewrite !length_app. lia.
Qed.

(** ** The normaliser, word by word *)

Section NormaliserWords.

Context {scalar : Type}.
Variable str_scalar : scalar -> pystr.
Variable unidecode_table : N -> N -> option pystr.

Local Abbreviation unidecode := (unidecode unidecode_table).
Local Abbreviation str := (str str_scalar).
Local Abbreviation pulisci_testo := (pulisci_testo str_scalar unidecode_table).

Lemma pulisci_testo_join x :
  isna x = false →
  pulisci_testo x = join_words (runs word_char (unidecode (str x))).
Proof.
  intros E. rewrite (pulisci_testo_present str_scalar unidecode_table x E).
  apply strip_collapse_filter.
Qed.

Lemma unidecode_app a b : unidecode (a ++ b) = unidecode a ++ unidecode b.
Proof. apply bind_app. Qed.

(** X1. The cleaned text of a value that is not missing is made of the
    maximal runs of letters, digits and hyphens of its transliterated
    text, in their order, with one space between two runs. *)
Theorem pulisci_testo_words x :
  pulisci_testo x
  = if isna x then []
    else join_words (runs word_char (unidecode (str x))).
Proof.
  destruct (isna x) eqn:E; [by destruct x|]. by apply pulisci_testo_join.
Qed.

(** X2. The cleaning keeps every letter, digit and hyphen of the
    transliterated text, in order, and adds nothing but spaces: without
    its spaces the cleaned text is the transliterated text without its
    other characters. *)
Theorem pulisci_testo_keeps_word_chars x :
  isna x = false →
  filter (λ c, c ≠ space) (pulisci_testo x)
  = filter (λ c, word_char c = true) (unidecode (str x)).
Proof.
  intros E. rewrite (pulisci_testo_join x E).
  rewrite filter_join_words; [apply concat_runs|].
  eapply list.Forall_impl; [apply (runs_sound word_char)|].
  intros w [_ Hw]. eapply list.Forall_impl; [exact Hw|].
  intros c [_ Hc%negb_true_iff%N.eqb_neq]%andb_true_iff. done.
Qed.

(** X3. The cleaned text is empty exactly for a missing value and for a
    value whose transliterated text has no letter, digit or hyphen. *)
Theorem pulisci_testo_empty_iff x :
  pulisci_testo x = []
  ↔ isna x = true ∨ Forall (λ c, word_char c = false) (unidecode (str x)).
Proof.
  destruct (isna x) eqn:E.
  - split; [by left|]. by destruct x.
  - rewrite (pulisci_testo_join x E), <- runs_nil. split.
    + intros H. right. eapply join_words_nil; [apply runs_nonempty|done].
    + intros [?| ->]; done.
Qed.

(** X4. The cleaned text is never longer than the transliterated text. *)
Theorem pulisci_testo_length x :
  (length (pulisci_testo x) ≤ length (unidecode (str x)))%nat.
Proof.
  destruct (isna x) eqn:E.
  - unfold pulisci_testo. rewrite E. simpl. lia.
  - rewrite (pulisci_testo_present str_scalar unidecode_table x E).
    etrans; [apply strip_length|].
    etrans; [apply re_sub_plus_length|].
    change (lit " ") with [space]. by rewrite re_sub_class_fmap, length_fmap.
Qed.

(** X5. A non-empty stretch of ASCII characters other than letters, digits
    and hyphens between two texts separates them: the cleaned whole is the
    cleaned left part, one space, the cleaned right part; and only the
    other part when one of them cleans to the empty text. *)
Theorem pulisci_testo_separator a j b :
  j ≠ [] →
  Forall (λ c, c < 0x80 ∧ word_char c = false) j →
  pulisci_testo (VStr (a ++ j ++ b))
  = join2 (pulisci_testo (VStr a)) (pulisci_testo (VStr b)).
Proof.
  intros Hne Hj. rewrite !pulisci_testo_join by done. simpl.
  rewrite !unidecode_app.
  rewrite (unidecode_ascii unidecode_table j).
  2:{ eapply list.Forall_impl; [exact Hj|]. by intros c [? _]. }
  destruct j as [|c j]; [done|]. apply list.Forall_cons in Hj as [[_ Hc] Hj].
  change ((c :: j) ++ unidecode b) with (c :: (j ++ unidecode b)).
  destruct (runs_app_junk word_char (unidecode a) c (j ++ unidecode b) Hc)
    as [-> _].
  rewrite runs_junk_prefix.
  2:{ eapply list.Forall_impl; [exact Hj|]. by intros d [_ ?]. }
  apply join_words_app; apply runs_nonempty.
Qed.

End NormaliserWords.

(** * The loop, row by row *)

Section TableLoop.

Context {scalar : Type}.
Variable str_scalar : scalar -> pystr.
Variable unidecode_table : N -> N -> option pystr.

Local Abbreviation value := (value scalar).
Local Abbreviation Row := (Row scalar).
Local Abbreviation DataFrame := (DataFrame scalar).
Local Abbreviation str := (str str_scalar).
Local Abbreviation pulisci_testo := (pulisci_testo str_scalar unidecode_table).
Local Abbreviation pulisci_colonna := (pulisci_colonna str_scalar unidecode_table).
Local Abbreviation pulisci_colonne := (pulisci_colonne str_scalar unidecode_table).
Local Abbreviation clean_cell := (clean_cell str_scalar unidecode_table).
Local Abbreviation clean_row := (clean_row str_scalar unidecode_table).
Local Abbreviation salva := (salva str_scalar).
Local Abbreviation pulizia := (pulizia str_scalar unidecode_table).

Local Abbreviation clean := (clean str_scalar unidecode_table).

Lemma clean_clean v : clean (clean v) = clean v.
Proof.
  unfold clean. f_equal. apply cleaned_fixed, pulisci_testo_cleaned.
Qed.

(** ** One cell *)

Lemma clean_cell_lookup i (r : Row) j :
  cells (clean_cell i r) !! j
  = if decide (i = j) then clean <$> cells r !! j else cells r !! j.
Proof.
  simpl. case_decide as E.
  - subst j. destruct (cells r !! i) as [v|] eqn:F; simpl.
    + apply list_lookup_insert_eq. by eapply lookup_lt_Some.
    + rewrite list_insert_ge by (by apply lookup_ge_None). done.
  - by apply list_lookup_insert_ne.
Qed.

Lemma clean_cell_length i (r : Row) :
  length (cells (clean_cell i r)) = length (cells r).
Proof. apply length_insert. Qed.

(** Rows are equal when their labels and their cells are. *)
Lemma row_eq (r r' : Row) :
  label r = label r' → (∀ j, cells r !! j = cells r' !! j) → r = r'.
Proof.
  destruct r as [l cs], r' as [l' cs']. simpl. intros -> H.
  f_equal. by apply list_eq.
Qed.

Lemma clean_cell_idem i (r : Row) : clean_cell i (clean_cell i r) = clean_cell i r.
Proof.
  apply row_eq; [done|]. intros j. rewrite !clean_cell_lookup.
  case_decide; [|done]. rewrite <- option_fmap_compose.
  destruct (cells r !! j); [|done]. simpl. f_equal. apply clean_clean.
Qed.

Lemma clean_cell_comm i j (r : Row) :
  clean_cell i (clean_cell j r) = clean_cell j (clean_cell i r).
Proof.
  apply row_eq; [done|]. intros k. rewrite !clean_cell_lookup.
  repeat case_decide; done.
Qed.

(** ** One row *)

Lemma clean_row_cons i ps (r : Row) :
  clean_row (i :: ps) r = clean_cell i (clean_row ps r).
Proof.
  unfold clean_row. simpl. revert r.
  induction ps as [|j ps IH]; intros r; [done|]. simpl.
  rewrite clean_cell_comm. apply IH.
Qed.

Lemma clean_row_label ps (r : Row) : label (clean_row ps r) = label r.
Proof.
  induction ps as [|i ps IH]; [done|]. by rewrite clean_row_cons.
Qed.

Lemma clean_row_lookup ps (r : Row) j :
  cells (clean_row ps r) !! j
  = if decide (j ∈ ps) then clean <$> cells r !! j else cells r !! j.
Proof.
  induction ps as [|i ps IH]; [done|].
  rewrite clean_row_cons, clean_cell_lookup, IH.
  destruct (decide (i = j)) as [->|Hne].
  - rewrite (decide_True (P := j ∈ j :: ps)) by apply list_elem_of_here.
    case_decide; [|done]. rewrite <- option_fmap_compose.
    destruct (cells r !! j); [|done]. simpl. f_equal. apply clean_clean.
  - destruct (decide (j ∈ ps)) as [Hin|Hout].
    + by rewrite decide_True by (by apply list_elem_of_further).
    + rewrite decide_False; [done|].
      intros [->|?]%elem_of_cons; done.
Qed.

Lemma clean_row_length ps (r : Row) :
  length (cells (clean_row ps r)) = length (cells r).
Proof.
  induction ps as [|i ps IH]; [done|].
  by rewrite clean_row_cons, clean_cell_length.
Qed.

Lemma clean_row_idem ps (r : Row) : clean_row ps (clean_row ps r) = clean_row ps r.
Proof.
  apply row_eq; [by rewrite !clean_row_label|]. intros j.
  rewrite !clean_row_lookup. case_decide; [|done].
  rewrite <- option_fmap_compose.
  destruct (cells r !! j); [|done]. simpl. f_equal. apply clean_clean.
Qed.

(** ** The whole loop *)

Lemma get_loc_None col (cols : list pystr) :
  col ∉ cols → get_loc col cols = None.
Proof.
  intros H. destruct (get_loc col cols) as [i|] eqn:E; [|done].
  destruct H. apply list_elem_of_lookup. exists i. by apply get_loc_Some.
Qed.

Lemma get_loc_NoDup (cols : list pystr) j name :
  NoDup cols → cols !! j = Some name → get_loc name cols = Some j.
Proof.
  intros Hnd Hj.
  destruct (get_loc_elem_of name cols) as [k Hk].
  { apply list_elem_of_lookup. by exists j. }
  rewrite Hk. f_equal. apply get_loc_Some in Hk. by eapply NoDup_lookup.
Qed.

Lemma positions_elem_of colonne (cols : list pystr) j name :
  NoDup cols → cols !! j = Some name →
  j ∈ positions colonne cols ↔ name ∈ colonne.
Proof.
  intros Hnd Hj. unfold positions. rewrite list_elem_of_omap. split.
  - intros (col & Hcol & Hloc). apply get_loc_Some in Hloc.
    rewrite Hj in Hloc. by injection Hloc as ->.
  - intros Hin. exists name. split; [done|]. by apply get_loc_NoDup.
Qed.

(** The loop cleans, in every row, the cells at the positions of the
    columns it finds. *)
Lemma pulisci_colonne_rows colonne (df : DataFrame) :
  pulisci_colonne colonne df
  = Some {| columns := columns df;
            rows := clean_row (positions colonne (columns df)) <$> rows df |}.
Proof.
  revert df. induction colonne as [|col colonne IH]; intros df.
  - simpl. unfold positions, clean_row. simpl.
    rewrite list_fmap_id. by destruct df.
  - simpl.
    destruct (decide (col ∈ columns df)) as [Hin|Hout].
    + destruct (get_loc_elem_of _ _ Hin) as [k Hk].
      rewrite (pulisci_colonna_present str_scalar unidecode_table df col k Hk).
      simpl. rewrite IH. simpl. do 2 f_equal.
      rewrite <- list_fmap_compose. unfold positions. simpl. rewrite Hk.
      done.
    + rewrite (pulisci_colonna_absent str_scalar unidecode_table df col Hout).
      simpl. rewrite IH. unfold positions. simpl.
      by rewrite (get_loc_None col _ Hout).
Qed.

(** The script, from the loaded table to the records it writes. *)
Lemma pulizia_rows (df : DataFrame) :
  pulizia df
  = Some (salva {| columns := columns df;
                   rows := clean_row (positions colonne_testo (columns df))
                             <$> rows (dropna_all df) |}).
Proof. unfold pulizia. by rewrite pulisci_colonne_rows. Qed.

Lemma pulizia_record (df : DataFrame) out i record :
  pulizia df = Some out →
  tail (csv_records out) !! i = Some record →
  ∃ r, rows (dropna_all df) !! i = Some r
       ∧ record = csv_field str_scalar []
                    <$> cells (clean_row (positions colonne_testo (columns df)) r).
Proof.
  rewrite pulizia_rows. intros E. apply (inj Some) in E. subst out.
  unfold salva, to_csv. cbn [csv_records tail rows app].
  rewrite !list_lookup_fmap.
  destruct (rows (dropna_all df) !! i) as [r|]; [|done].
  cbn [fmap option_fmap option_map]. intros E. apply (inj Some) in E.
  by exists r.
Qed.

Lemma filter_all {A} (P : A → Prop) `{!∀ x, Decision (P x)} (l : list A) :
  Forall P l → filter P l = l.
Proof.
  induction 1 as [|x l Hx _ IH]; [done|].
  by rewrite filter_cons, decide_True, IH.
Qed.

Lemma filter_none {A} (P : A → Prop) `{!∀ x, Decision (P x)} (l : list A) :
  Forall (λ x, ¬ P x) l → filter P l = [].
Proof.
  induction 1 as [|x l Hx _ IH]; [done|].
  by rewrite filter_cons, decide_False, IH.
Qed.

Lemma dropna_all_unchanged (df : DataFrame) :
  Forall (λ r, forallb isna (cells r) = false) (rows df) → dropna_all df = df.
Proof.
  intros H. unfold dropna_all. rewrite filter_all by done. by destruct df.
Qed.

(** X6. Dropping the empty rows twice is dropping them once. *)
Theorem dropna_all_idempotent (df : DataFrame) :
  dropna_all (dropna_all df) = dropna_all df.
Proof.
  apply dropna_all_unchanged. simpl.
  apply list.Forall_forall. by intros r [? _]%list_elem_of_filter.
Qed.

(** X7. Dropping the empty rows leaves a table as it is exactly when each
    of its rows has a cell that is not missing; a row without cells counts
    as empty. *)
Theorem dropna_all_unchanged_iff (df : DataFrame) :
  dropna_all df = df ↔ ∀ r, r ∈ rows df → ∃ v, v ∈ cells r ∧ v ≠ VNa.
Proof.
  split.
  - intros E r Hr. rewrite <- E in Hr. simpl in Hr.
    apply list_elem_of_filter in Hr as [Hr _].
    by apply forallb_isna_false.
  - intros H. apply dropna_all_unchanged, list.Forall_forall.
    intros r Hr. apply forallb_isna_false. by apply H.
Qed.

(** X8. [df[col]] raises [KeyError] exactly for the names that the test
    [col in df.columns] rejects. *)
Theorem getitem_guard (df : DataFrame) col :
  is_Some (getitem df col) ↔ has_column df col = true.
Proof.
  unfold getitem, has_column. rewrite bool_decide_eq_true. split.
  - intros [s Hs]. destruct (get_loc col (columns df)) as [i|] eqn:E; [|done].
    apply list_elem_of_lookup. exists i. by apply get_loc_Some.
  - intros [i ->]%get_loc_elem_of. by eexists.
Qed.

(** X9. On a table with distinct column names, running the loop over the
    text columns a second time changes nothing. *)
Theorem pulisci_colonne_idempotent colonne (df df' : DataFrame) :
  NoDup (columns df) →
  pulisci_colonne colonne df = Some df' →
  pulisci_colonne colonne df' = Some df'.
Proof.
  intros _. rewrite pulisci_colonne_rows. intros [= <-].
  rewrite pulisci_colonne_rows. simpl. do 2 f_equal.
  rewrite <- list_fmap_compose. apply list_fmap_ext.
  intros _ r _. apply clean_row_idem.
Qed.

(** X10. On a table with distinct column names that has one of the text
    columns, with a cell in that column in every row, no row is empty
    after the loop: dropping the empty rows then would drop nothing, also
    not the rows that were empty when the table was loaded. *)
Theorem pulisci_colonne_no_empty_row colonne (df df' : DataFrame) j name :
  NoDup (columns df) →
  name ∈ colonne → columns df !! j = Some name →
  (∀ r, r ∈ rows df → (j < length (cells r))%nat) →
  pulisci_colonne colonne df = Some df' →
  dropna_all df' = df'.
Proof.
  intros Hnd Hname Hj Hwide. rewrite pulisci_colonne_rows. intros [= <-].
  apply dropna_all_unchanged. simpl. apply Forall_fmap, list.Forall_forall.
  intros r Hr. simpl. apply forallb_isna_false.
  destruct (lookup_lt_is_Some_2 (cells r) j (Hwide r Hr)) as [v Hv].
  exists (clean v). split; [|done].
  apply list_elem_of_lookup. exists j.
  rewrite clean_row_lookup, decide_True, Hv; [done|].
  by apply (positions_elem_of colonne (columns df) j name).
Qed.

(** ** The script as a whole *)

Lemma pulisci_testo_not_allowed x c : allowed c = false → c ∉ pulisci_testo x.
Proof.
  intros Hc Hin.
  pose proof (pulisci_testo_all_allowed str_scalar unidecode_table x) as H.
  rewrite list.Forall_forall in H. specialize (H c Hin). congruence.
Qed.

(** X11. On a loaded table with distinct column names, the steps between
    loading and writing raise no [KeyError], and what the script hands to
    the csv writer is the semicolon as delimiter, the header of the loaded
    table, and then as many records as the table has rows that are not
    empty. Whether the file can then be written is not part of this. *)
Theorem pulizia_shape (df : DataFrame) :
  NoDup (columns df) →
  ∃ out, pulizia df = Some out
    ∧ csv_sep out = 59
    ∧ head (csv_records out) = Some (columns df)
    ∧ length (tail (csv_records out)) = length (rows (dropna_all df)).
Proof.
  intros _. eexists. split; [apply pulizia_rows|].
  unfold salva, to_csv. cbn [csv_sep csv_records head tail rows columns app].
  repeat split. by rewrite !length_fmap.
Qed.

(** X12. In what the script writes, a field under a text column is the
    cleaned text of the cell that was loaded at that place, and it holds
    no semicolon, no double quote and no line break. *)
Theorem pulizia_text_fields (df : DataFrame) out i j name record field :
  NoDup (columns df) →
  pulizia df = Some out →
  tail (csv_records out) !! i = Some record →
  columns df !! j = Some name → name ∈ colonne_testo →
  record !! j = Some field →
  (∃ r v, rows (dropna_all df) !! i = Some r ∧ cells r !! j = Some v
          ∧ field = pulisci_testo v)
  ∧ (59 ∉ field) ∧ (34 ∉ field) ∧ (10 ∉ field) ∧ (13 ∉ field).
Proof.
  intros Hnd E Hrec Hj Hname Hfield.
  destruct (pulizia_record df out i record E Hrec) as (r & Hr & ->).
  rewrite list_lookup_fmap, clean_row_lookup in Hfield.
  rewrite decide_True in Hfield
    by (by apply (positions_elem_of colonne_testo (columns df) j name)).
  destruct (cells r !! j) as [v|] eqn:Hv; [|done].
  apply (inj Some) in Hfield. subst field.
  change (csv_field str_scalar [] (clean v)) with (pulisci_testo v).
  split; [by exists r, v|].
  repeat split; by apply pulisci_testo_not_allowed.
Qed.

(** X13. In what the script writes, a field under a column that is not
    a text column is the loaded cell as it was: empty for a missing
    value, its text otherwise. *)
Theorem pulizia_other_fields (df : DataFrame) out i j name record field :
  NoDup (columns df) →
  pulizia df = Some out →
  tail (csv_records out) !! i = Some record →
  columns df !! j = Some name → name ∉ colonne_testo →
  record !! j = Some field →
  ∃ r v, rows (dropna_all df) !! i = Some r ∧ cells r !! j = Some v
         ∧ field = if isna v then [] else str v.
Proof.
  intros Hnd E Hrec Hj Hname Hfield.
  destruct (pulizia_record df out i record E Hrec) as (r & Hr & ->).
  rewrite list_lookup_fmap, clean_row_lookup in Hfield.
  rewrite decide_False in Hfield
    by (by rewrite (positions_elem_of colonne_testo (columns df) j name)).
  destruct (cells r !! j) as [v|] eqn:Hv; [|done].
  apply (inj Some) in Hfield. subst field. by exists r, v.
Qed.

(** X14. When every row of the loaded table is empty, and so when the
    table has no row at all, the script writes the header alone. *)
Theorem pulizia_all_missing (df : DataFrame) :
  NoDup (columns df) →
  (∀ r, r ∈ rows df → Forall (λ v, v = VNa) (cells r)) →
  pulizia df = Some {| csv_sep := 59; csv_records := [columns df] |}.
Proof.
  intros _ H. rewrite pulizia_rows.
  assert (rows (dropna_all df) = []) as ->; [|done].
  simpl. apply filter_none, list.Forall_forall. intros r Hr.
  apply not_false_iff_true. specialize (H r Hr).
  induction H as [|v vs -> _ IH]; done.
Qed.

(** X15. When every row of the loaded table has one cell per column, every
    record that the script writes has one field per column. *)
Theorem pulizia_rectangular (df : DataFrame) out record :
  NoDup (columns df) →
  (∀ r, r ∈ rows df → length (cells r) = length (columns df)) →
  pulizia df = Some out →
  record ∈ csv_records out →
  length record = length (columns df).
Proof.
  intros _ Hwf E Hin.
  assert (csv_records out = columns df :: tail (csv_records out)) as Hrecs.
  { rewrite pulizia_rows in E. apply (inj Some) in E. by subst out. }
  rewrite Hrecs in Hin. apply elem_of_cons in Hin as [->|Hin]; [done|].
  apply list_elem_of_lookup in Hin as [i Hi].
  destruct (pulizia_record df out i record E Hi) as (r & Hr & ->).
  rewrite length_fmap, clean_row_length. apply Hwf.
  apply list_elem_of_lookup_2 in Hr. simpl in Hr.
  by apply list_elem_of_filter in Hr as [_ ?].
Qed.

End TableLoop.

(** * The further properties on the concrete instance *)

Lemma tabella_NoDup : NoDup (columns tabella).
Proof. apply (bool_decide_unpack _). by vm_compute. Qed.

Lemma tabella_vuota_NoDup : NoDup (columns tabella_vuota).
Proof. apply (bool_decide_unpack _). by vm_compute. Qed.

Lemma pulizia_tabella_scritta :
  pulizia str_bool unidecode_excerpt tabella = Some tabella_scritta.
Proof. by vm_compute. Qed.

Lemma pulisci_colonne_tabella :
  pulisci_colonne str_bool unidecode_excerpt colonne_testo tabella
  = Some tabella_dopo.
Proof. by vm_compute. Qed.

Lemma pulisci_testo_keeps_word_chars_witness :
  filter (λ c, c ≠ space)
         (pulisci_testo str_bool unidecode_excerpt (VStr (lit "12 Rue d'Or")))
  = filter (λ c, word_char c = true)
           (unidecode unidecode_excerpt (str str_bool (VStr (lit "12 Rue d'Or")))).
Proof.
  apply (pulisci_testo_keeps_word_chars str_bool unidecode_excerpt).
  reflexivity.
Defined.

Lemma pulisci_testo_separator_witness :
  pulisci_testo str_bool unidecode_excerpt
    (VStr (lit "Italian" ++ lit "/ " ++ lit "French!!"))
  = join2 (pulisci_testo str_bool unidecode_excerpt (VStr (lit "Italian")))
          (pulisci_testo str_bool unidecode_excerpt (VStr (lit "French!!"))).
Proof.
  apply (pulisci_testo_separator str_bool unidecode_excerpt).
  - discriminate.
  - apply (bool_decide_unpack _). by vm_compute.
Defined.

Lemma pulisci_colonne_idempotent_witness :
  pulisci_colonne str_bool unidecode_excerpt colonne_testo tabella_dopo
  = Some tabella_dopo.
Proof.
  apply (pulisci_colonne_idempotent str_bool unidecode_excerpt
           colonne_testo tabella tabella_dopo).
  - exact tabella_NoDup.
  - exact pulisci_colonne_tabella.
Defined.

Lemma pulisci_colonne_no_empty_row_witness :
  dropna_all tabella_dopo = tabella_dopo.
Proof.
  apply (pulisci_colonne_no_empty_row str_bool unidecode_excerpt
           colonne_testo tabella tabella_dopo 0%nat (lit "Nome")).
  - exact tabella_NoDup.
  - apply (bool_decide_unpack _). by vm_compute.
  - reflexivity.
  - apply list.Forall_forall, (bool_decide_unpack _). by vm_compute.
  - exact pulisci_colonne_tabella.
Defined.

Lemma pulizia_shape_witness :
  ∃ out, pulizia str_bool unidecode_excerpt tabella = Some out
    ∧ csv_sep out = 59
    ∧ head (csv_records out) = Some (columns tabella)
    ∧ length (tail (csv_records out)) = length (rows (dropna_all tabella)).
Proof.
  apply (pulizia_shape str_bool unidecode_excerpt tabella).
  exact tabella_NoDup.
Defined.

Lemma pulizia_text_fields_witness :
  (∃ r v, rows (dropna_all tabella) !! 0%nat = Some r
          ∧ cells r !! 0%nat = Some v
          ∧ lit "Cafe-Munchner" = pulisci_testo str_bool unidecode_excerpt v)
  ∧ (59 ∉ lit "Cafe-Munchner") ∧ (34 ∉ lit "Cafe-Munchner")
  ∧ (10 ∉ lit "Cafe-Munchner") ∧ (13 ∉ lit "Cafe-Munchner").
Proof.
  apply (pulizia_text_fields str_bool unidecode_excerpt tabella tabella_scritta
           0%nat 0%nat (lit "Nome")
           [lit "Cafe-Munchner"; lit "Area O1"; lit ""; lit "12 Rue d Or";
            [0x20AC; 0x20AC]]).
  - exact tabella_NoDup.
  - exact pulizia_tabella_scritta.
  - reflexivity.
  - reflexivity.
  - apply (bool_decide_unpack _). by vm_compute.
  - reflexivity.
Defined.

Lemma pulizia_other_fields_witness :
  ∃ r v, rows (dropna_all tabella) !! 0%nat = Some r
         ∧ cells r !! 4%nat = Some v
         ∧ [0x20AC; 0x20AC] = if isna v then [] else str str_bool v.
Proof.
  apply (pulizia_other_fields str_bool unidecode_excerpt tabella tabella_scritta
           0%nat 4%nat (lit "Prezzo")
           [lit "Cafe-Munchner"; lit "Area O1"; lit ""; lit "12 Rue d Or";
            [0x20AC; 0x20AC]]).
  - exact tabella_NoDup.
  - exact pulizia_tabella_scritta.
  - reflexivity.
  - reflexivity.
  - apply (bool_decide_unpack _). by vm_compute.
  - reflexivity.
Defined.

Lemma pulizia_all_missing_witness :
  pulizia str_bool unidecode_excerpt tabella_vuota
  = Some {| csv_sep := 59; csv_records := [columns tabella_vuota] |}.
Proof.
  apply (pulizia_all_missing str_bool unidecode_excerpt tabella_vuota).
  - exact tabella_vuota_NoDup.
  - apply list.Forall_forall. repeat constructor.
Defined.

Lemma pulizia_rectangular_witness :
  length [lit "Cafe-Munchner"; lit "Area O1"; lit ""; lit "12 Rue d Or";
          [0x20AC; 0x20AC]]
  = length (columns tabella).
Proof.
  apply (pulizia_rectangular str_bool unidecode_excerpt tabella tabella_scritta).
  - exact tabella_NoDup.
  - apply list.Forall_forall. repeat constructor.
  - exact pulizia_tabella_scritta.
  - apply (bool_decide_unpack _). by vm_compute.
Defined.
